(** * ray-so: the keystroke commands of [src/components/Editor.tsx]

    The editor binds three keys of a [<textarea>]: Tab (with or without
    shift), Enter and the closing brace.  Each handler reads the control's
    [value], [selectionStart] and [selectionEnd], and changes them through
    [setSelectionRange] and [document.execCommand("insertText", ...)].

    The embedding is shallow.  A JavaScript string is the list of its UTF-16
    code units, offsets and lengths are integers ([Z], as [lastIndexOf] can
    answer [-1] and the handlers subtract from offsets), and the text control
    is a record threaded through the handlers.  [htmlEncode], which prepares
    the text for the highlighter, is embedded with the backtracking matcher
    of its fence pattern. *)

From Stdlib Require Import List ZArith NArith Lia Bool Ascii String.
Import ListNotations.

Local Open Scope Z_scope.

(** ** JavaScript strings *)

Definition code_unit := N.
Definition jsstring := list code_unit.

(** A literal of the source, written as a Rocq string of ASCII characters. *)
Definition js (s : string) : jsstring :=
  List.map N_of_ascii (list_ascii_of_string s).

Definition LF : code_unit := 10%N.
Definition SP : code_unit := 32%N.

(** [s.length] *)
Definition len (s : jsstring) : Z := Z.of_nat (List.length s).

(** The class [\s] of a regular expression without the [u] flag: the
    WhiteSpace and LineTerminator code points of ECMAScript. *)
Definition is_space (c : code_unit) : bool :=
  ((9 <=? c) && (c <=? 13) || (c =? 32) || (c =? 160) || (c =? 5760)
   || (8192 <=? c) && (c <=? 8202) || (c =? 8232) || (c =? 8233)
   || (c =? 8239) || (c =? 8287) || (c =? 12288) || (c =? 65279))%N.

(** The class [[{\[:>]]. *)
Definition is_block_opener (c : code_unit) : bool :=
  ((c =? 123) || (c =? 91) || (c =? 58) || (c =? 62))%N.

(** A relative index of [slice]: negative counts from the end, and the
    result is kept within the string. *)
Definition rel_index (n k : Z) : Z :=
  if k <? 0 then Z.max (n + k) 0 else Z.min k n.

(** [s.slice(a, b)] *)
Definition slice (s : jsstring) (a b : Z) : jsstring :=
  let from := rel_index (len s) a in
  let to := rel_index (len s) b in
  firstn (Z.to_nat (to - from)) (skipn (Z.to_nat from) s).

(** [s.slice(a)] *)
Definition slice_from (s : jsstring) (a : Z) : jsstring :=
  slice s a (len s).

(** [s.lastIndexOf(c)] for a one-unit search string: the scan keeps the
    index of the latest occurrence seen, [-1] when there is none. *)
Fixpoint lastIndexOf_at (c : code_unit) (s : jsstring) (i found : Z) : Z :=
  match s with
  | [] => found
  | d :: s' => lastIndexOf_at c s' (i + 1) (if (d =? c)%N then i else found)
  end.

Definition lastIndexOf (c : code_unit) (s : jsstring) : Z :=
  lastIndexOf_at c s 0 (-1).

(** [s.split(c)] for a one-unit separator; the empty string gives one
    empty piece. *)
Fixpoint split (c : code_unit) (s : jsstring) : list jsstring :=
  match s with
  | [] => [[]]
  | d :: s' =>
      if (d =? c)%N then [] :: split c s'
      else match split c s' with
           | l :: ls => (d :: l) :: ls
           | [] => [[d]]
           end
  end.

(** [pieces.join(c)] *)
Fixpoint join (c : code_unit) (pieces : list jsstring) : jsstring :=
  match pieces with
  | [] => []
  | [l] => l
  | l :: ls => l ++ c :: join c ls
  end.

(** [s.startsWith(p)] *)
Fixpoint startsWith (s p : jsstring) : bool :=
  match p, s with
  | [], _ => true
  | _ :: _, [] => false
  | a :: p', b :: s' => (a =? b)%N && startsWith s' p'
  end.

(** [a || b] on numbers: [0] is the falsy one. *)
Definition or_number (a b : Z) : Z := if a =? 0 then b else a.

(** ** The regular expressions of the handlers *)

(** [str.replace(/^\s\s/, "")]: the pattern is anchored at the start of the
    input and is not global, so it removes the first two units when both
    are whitespace and nothing otherwise. *)
Definition replace_two_leading_spaces (str : jsstring) : jsstring :=
  match str with
  | c1 :: c2 :: rest => if is_space c1 && is_space c2 then rest else str
  | _ => str
  end.

(** The greedy run [\s+] read from the front of the input. *)
Fixpoint space_run (s : jsstring) : jsstring :=
  match s with
  | c :: s' => if is_space c then c :: space_run s' else []
  | [] => []
  end.

(** [str.match(/^(\s+)/)]: the matched text, [None] for JavaScript's
    [null] when the input does not start with whitespace. *)
Definition match_leading_space (str : jsstring) : option jsstring :=
  match space_run str with
  | [] => None
  | run => Some run
  end.

(** [str.match(/([{\[:>])$/)] as a truth value.  The pattern is tried at
    every position from the left; without the [m] flag [$] holds only at
    the end of the input. *)
Fixpoint match_opener_at_end (str : jsstring) : bool :=
  match str with
  | [] => false
  | c :: rest =>
      (is_block_opener c && match rest with [] => true | _ => false end)
      || match_opener_at_end rest
  end.

(** [str.match(/^\s{2,}$/)] as a truth value: after the whitespace run
    nothing is left, and the run has two units or more. *)
Definition match_only_spaces (str : jsstring) : bool :=
  match str with
  | c1 :: c2 :: rest =>
      is_space c1 && is_space c2 && forallb is_space rest
  | _ => false
  end.

(** ** [indentText] and [dedentText] *)

Definition indentText (text : jsstring) : jsstring :=
  join LF (List.map (fun str => js "  " ++ str) (split LF text)).

Definition dedentText (text : jsstring) : jsstring :=
  join LF (List.map replace_two_leading_spaces (split LF text)).

(** ** The text control

    [value] is the control's API value; [selectionStart] and [selectionEnd]
    are offsets into it. *)

Record textarea := mkTextarea {
  value : jsstring;
  selectionStart : Z;
  selectionEnd : Z
}.

(** The conversion of a number to WebIDL's [unsigned long], the type of
    both arguments of [setSelectionRange]: an integer is taken modulo
    [2^32], so a negative one lands far beyond any string. *)
Definition ToUint32 (x : Z) : Z := x mod 2 ^ 32.

(** [textarea.setSelectionRange(start, end)], after the HTML standard's
    "set the selection range": an argument greater than the length of the
    value points at the end of the value, and when [end] is not after
    [start] both ends of the selection are placed at [end]. *)
Definition setSelectionRange (start end_ : Z) (t : textarea) : textarea :=
  let n := len (value t) in
  let s := Z.min (ToUint32 start) n in
  let e := Z.min (ToUint32 end_) n in
  if e <=? s then mkTextarea (value t) e e
  else mkTextarea (value t) s e.

(** [document.execCommand("insertText", false, text)] with the control
    focused: the selected range is replaced by [text] and the caret is left
    collapsed after it.  This is what the control does for a text that is
    not empty and a range whose two ends are boundaries of characters
    ([text_boundary]); an empty text is a deletion, after which the control
    places the caret by rules of its own, and an end inside a surrogate
    pair or a combining sequence is moved out of it first.  The statements
    on single insertions below keep to that domain. *)
Definition insertText (text : jsstring) (t : textarea) : textarea :=
  let s := Z.to_nat (selectionStart t) in
  let e := Z.to_nat (selectionEnd t) in
  let caret := selectionStart t + len text in
  mkTextarea (firstn s (value t) ++ text ++ skipn e (value t)) caret caret.

(** ** The handlers *)

(** [split] never answers an empty array, so [[0]] is always defined; the
    default of [hd] is not reached. *)
Definition getCurrentlySelectedLine (t : textarea) : jsstring :=
  let original := value t in
  let selectionStart := selectionStart t in
  let beforeStart := slice original 0 selectionStart in
  hd []
     (split LF
        (slice_from original
           (if negb (lastIndexOf LF beforeStart =? -1)
            then lastIndexOf LF beforeStart + 1
            else 0))).

Definition handleTab (t : textarea) (shiftKey : bool) : textarea :=
  let original := value t in
  let start := selectionStart t in
  let end_ := selectionEnd t in
  let beforeStart := slice original 0 start in
  let currentLine := getCurrentlySelectedLine t in
  if start =? end_ then
    if shiftKey then
      let newStart := lastIndexOf LF beforeStart + 1 in
      let t := setSelectionRange newStart end_ t in
      insertText (dedentText (slice original newStart end_)) t
    else
      insertText (js "  ") t
  else
    let newStart := or_number (lastIndexOf LF beforeStart + 1) 0 in
    let t := setSelectionRange newStart end_ t in
    if shiftKey then
      let newText := dedentText (slice original newStart end_) in
      let t := insertText newText t in
      if startsWith currentLine (js "  ")
      then setSelectionRange (start - 2) (start - 2 + len newText) t
      else setSelectionRange start (start + len newText) t
    else
      let newText := indentText (slice original newStart end_) in
      let t := insertText newText t in
      setSelectionRange (start + 2) (start + 2 + len newText) t.

Definition handleEnter (t : textarea) : textarea :=
  let currentLine := getCurrentlySelectedLine t in
  let currentIndentationMatch := match_leading_space currentLine in
  let wantedIndentation :=
    match currentIndentationMatch with
    | Some m => m
    | None => []
    end in
  let wantedIndentation :=
    if match_opener_at_end currentLine
    then wantedIndentation ++ js "  "
    else wantedIndentation in
  insertText (LF :: wantedIndentation) t.

Definition handleBracketClose (t : textarea) : textarea :=
  let currentLine := getCurrentlySelectedLine t in
  let t' :=
    if (selectionStart t =? selectionEnd t) && match_only_spaces currentLine
    then setSelectionRange (selectionStart t - 2) (selectionEnd t) t
    else t in
  insertText (js "}") t'.

(** The keys [handleKeyDown] acts on; every other key is left to the
    control. *)
Inductive KeyEvent :=
| Tab (shiftKey : bool)
| CloseBrace
| Enter.

Definition handleKeyDown (event : KeyEvent) (t : textarea) : textarea :=
  match event with
  | Tab shiftKey => handleTab t shiftKey
  | CloseBrace => handleBracketClose t
  | Enter => handleEnter t
  end.

(** ** Predicates of the statements *)

(** A selection of the control: [0 <= start <= end <= length]. *)
Definition valid_selection (t : textarea) : Prop :=
  0 <= selectionStart t /\ selectionStart t <= selectionEnd t
  /\ selectionEnd t <= len (value t).

(** A line: a string without line feed. *)
Definition is_line (l : jsstring) : Prop := ~ In LF l.

(** What comes before a line: nothing, or text closed by a line feed. *)
Definition ends_line (pre : jsstring) : Prop :=
  pre = [] \/ exists p, pre = p ++ [LF].

(** What comes after a line: nothing, or a line feed and more text. *)
Definition starts_line (post : jsstring) : Prop :=
  post = [] \/ exists q, post = LF :: q.

(** An offset as the control places it in a value of length [n]: a
    negative argument has wrapped beyond the value and points at its end. *)
Definition placed (n x : Z) : Z := if x <? 0 then n else Z.min x n.

(** The spec's words for what [dedent] does to one line: the first two
    characters go when both are whitespace, and the line stays as it is
    otherwise. *)
Inductive strips_two_spaces : jsstring -> jsstring -> Prop :=
| strips_both (c1 c2 : code_unit) (rest : jsstring) :
    is_space c1 = true -> is_space c2 = true ->
    strips_two_spaces (c1 :: c2 :: rest) rest
| strips_nothing (l : jsstring) :
    (forall c1 c2 rest, l = c1 :: c2 :: rest ->
                        is_space c1 = false \/ is_space c2 = false) ->
    strips_two_spaces l l.

(** The spec's words for the trigger of Enter: the last character of the
    line is one of the four openers; an empty line has none. *)
Definition opens_block (line : jsstring) : bool :=
  match rev line with
  | c :: _ => is_block_opener c
  | [] => false
  end.

(** The spec's words for the lines the closing brace snaps back on: two
    characters or more, all of them whitespace. *)
Definition only_spaces (line : jsstring) : Prop :=
  2 <= len line /\ Forall (fun c => is_space c = true) line.

(** A string that does not begin with whitespace. *)
Definition no_leading_space (s : jsstring) : Prop :=
  forall c r, s = c :: r -> is_space c = false.

(** The spec's words for a function that works line by line: a text of
    one line is sent to what the line is sent to, and a line, a line feed
    and more text are sent to what the line is sent to, a line feed and
    what the rest is sent to. *)
Inductive per_line (change : jsstring -> jsstring -> Prop)
  : jsstring -> jsstring -> Prop :=
| per_line_last (l l' : jsstring) :
    is_line l -> change l l' -> per_line change l l'
| per_line_more (l l' rest rest' : jsstring) :
    is_line l -> change l l' -> per_line change rest rest' ->
    per_line change (l ++ LF :: rest) (l' ++ LF :: rest').

(** The spec's words for what [indent] does to one line. *)
Definition gains_two_spaces (l l' : jsstring) : Prop := l' = SP :: SP :: l.



(** Every engine caps the length of a string below [2^31] (V8 at
    [2^29 - 24] or [2^30 - 25], SpiderMonkey at [2^30 - 2], JavaScriptCore
    at [2^31 - 1]); offsets of such a string pass [ToUint32] unchanged. *)
Definition engine_string (s : jsstring) : Prop := len s < 2 ^ 31.

(** ** [htmlEncode]

    The first pattern of [htmlEncode] reads a fenced block: three
    backticks, the group [(tsx?|jsx?|html|xml)], a group of [.*], then
    [\s+], a group of [[\s\S]*?], the group [(\s.+)?] and three backticks
    again.  It is run by a backtracking matcher.  Each piece of the pattern
    is a function from the input still to read to the list of the rests it
    can leave, in the order the matcher tries them; a piece followed by
    another is the composition [>>=], and the match the engine reports is
    the first of the list. *)

Definition rests := list jsstring.

Definition and_then (l : rests) (piece : jsstring -> rests) : rests :=
  flat_map piece l.

Notation "l >>= piece" := (and_then l piece)
  (at level 50, left associativity).

(** The rest of [s] after the prefix [p]. *)
Fixpoint strip_prefix (p s : jsstring) : option jsstring :=
  match p, s with
  | [], _ => Some s
  | _ :: _, [] => None
  | a :: p', b :: s' => if (a =? b)%N then strip_prefix p' s' else None
  end.

(** Literal characters of a pattern. *)
Definition literal (p : jsstring) (s : jsstring) : rests :=
  match strip_prefix p s with
  | Some rest => [rest]
  | None => []
  end.

(** One character of a class. *)
Definition one (class : code_unit -> bool) (s : jsstring) : rests :=
  match s with
  | c :: rest => if class c then [rest] else []
  | [] => []
  end.

(** [x*] on a class: one more character first, then none. *)
Fixpoint greedy_star (class : code_unit -> bool) (s : jsstring) : rests :=
  match s with
  | c :: rest => if class c then greedy_star class rest ++ [s] else [s]
  | [] => [[]]
  end.

(** [x+] on a class. *)
Definition greedy_plus (class : code_unit -> bool) (s : jsstring) : rests :=
  one class s >>= greedy_star class.

(** [x*?] on a class: none first, then one more character. *)
Fixpoint lazy_star (class : code_unit -> bool) (s : jsstring) : rests :=
  s :: match s with
       | c :: rest => if class c then lazy_star class rest else []
       | [] => []
       end.

(** [(x)?]: the group first, then without it. *)
Definition optional (piece : jsstring -> rests) (s : jsstring) : rests :=
  piece s ++ [s].

(** The class [.] without the [s] flag: everything but the line
    terminators. *)
Definition is_dot (c : code_unit) : bool :=
  negb ((c =? 10) || (c =? 13) || (c =? 8232) || (c =? 8233))%N.

(** The class [[\s\S]]. *)
Definition is_any (c : code_unit) : bool := is_space c || negb (is_space c).

(** [(tsx?|jsx?|html|xml)], the alternatives from left to right. *)
Definition language (s : jsstring) : rests :=
  (literal (js "ts") s >>= optional (literal (js "x")))
  ++ (literal (js "js") s >>= optional (literal (js "x")))
  ++ literal (js "html") s
  ++ literal (js "xml") s.

(** The rests the fence pattern can leave when it is tried at the start of
    [s]. *)
Definition match_fence (s : jsstring) : rests :=
  literal (js "```") s
  >>= language
  >>= greedy_star is_dot
  >>= greedy_plus is_space
  >>= lazy_star is_any
  >>= optional (fun r => one is_space r >>= greedy_plus is_dot)
  >>= literal (js "```").

(** [s.replace(pattern, replacer)] for the global fence pattern: the
    pattern is tried at each position from the left; a match is handed to
    [replacer] and the search goes on after it.  A match is never empty, so
    every step goes on from a shorter string and the length of the input is
    fuel enough ([replace_fences_fuel]). *)
Fixpoint replace_fences (replacer : jsstring -> jsstring) (fuel : nat)
    (s : jsstring) : jsstring :=
  match fuel with
  | O => s
  | S fuel' =>
      match match_fence s with
      | rest :: _ =>
          replacer (firstn (List.length s - List.length rest) s)
          ++ replace_fences replacer fuel' rest
      | [] =>
          match s with
          | c :: s' => c :: replace_fences replacer fuel' s'
          | [] => []
          end
      end
  end.

(** The class of both replacements: [<], [&] and the double quote. *)
Definition is_special (c : code_unit) : bool :=
  ((c =? 60) || (c =? 38) || (c =? 34))%N.

(** The table both replacers look their character up in; it has an entry
    for [>], which the class leaves out. *)
Definition entities : list (code_unit * jsstring) :=
  [ (60%N, js "&lt;"); (62%N, js "&gt;"); (38%N, js "&amp;");
    (34%N, js "&quot;") ].

(** [table[c]]: [None] is JavaScript's [undefined]. *)
Fixpoint lookup (table : list (code_unit * jsstring)) (c : code_unit)
  : option jsstring :=
  match table with
  | [] => None
  | (k, v) :: table' => if (k =? c)%N then Some v else lookup table' c
  end.

(** A replacer that answers [undefined] has it written out. *)
Definition replacement (r : option jsstring) : jsstring :=
  match r with
  | Some text => text
  | None => js "undefined"
  end.

(** [str.replace(class, (c) => table[c])] with the global class: every
    character of the class gives way to what the replacer answers. *)
Definition escape_special (str : jsstring) : jsstring :=
  flat_map
    (fun c => if is_special c then replacement (lookup entities c) else [c])
    str.

Definition htmlEncode (sHtml : jsstring) : jsstring :=
  escape_special (replace_fences escape_special (List.length sHtml) sHtml).

(** The entity the spec of HTML gives a character, for the statements. *)
Definition entity_of (c : code_unit) : jsstring :=
  if (c =? 60)%N then js "&lt;"
  else if (c =? 38)%N then js "&amp;"
  else if (c =? 34)%N then [38; 113; 117; 111; 116; 59]%N
  else [c].

(** Text in which every [&] begins one of the three entities and no [<] or
    double quote is left. *)
Inductive entity_text : jsstring -> Prop :=
| entity_text_nil : entity_text []
| entity_text_plain (c : code_unit) (rest : jsstring) :
    is_special c = false -> entity_text rest -> entity_text (c :: rest)
| entity_text_lt (rest : jsstring) :
    entity_text rest -> entity_text (js "&lt;" ++ rest)
| entity_text_amp (rest : jsstring) :
    entity_text rest -> entity_text (js "&amp;" ++ rest)
| entity_text_quot (rest : jsstring) :
    entity_text rest -> entity_text (js "&quot;" ++ rest).

(** [s] has the three backticks of a fence somewhere. *)
Definition has_fence (s : jsstring) : Prop :=
  exists a b, s = a ++ js "```" ++ b.

(** ** Lengths, slices and the last line feed *)

Lemma len_nonneg (s : jsstring) : 0 <= len s.
Proof. unfold len; lia. Qed.

Lemma len_app (a b : jsstring) : len (a ++ b) = len a + len b.
Proof. unfold len; rewrite length_app; lia. Qed.

Lemma len_cons (c : code_unit) (s : jsstring) : len (c :: s) = len s + 1.
Proof. unfold len; simpl; lia. Qed.

Lemma len_nil : len [] = 0.
Proof. reflexivity. Qed.

Lemma rel_index_inside (n k : Z) : 0 <= k <= n -> rel_index n k = k.
Proof.
  intros Hk; unfold rel_index.
  destruct (Z.ltb_spec k 0); lia.
Qed.

Lemma slice_inside (s : jsstring) (a b : Z) :
  0 <= a <= len s -> 0 <= b <= len s ->
  slice s a b = firstn (Z.to_nat (b - a)) (skipn (Z.to_nat a) s).
Proof.
  intros Ha Hb; unfold slice.
  now rewrite !rel_index_inside by assumption.
Qed.

Lemma firstn_len_app (a b : jsstring) : firstn (Z.to_nat (len a)) (a ++ b) = a.
Proof.
  unfold len; rewrite Nat2Z.id, firstn_app, Nat.sub_diag, firstn_all.
  simpl; apply app_nil_r.
Qed.

Lemma skipn_len_app (a b : jsstring) : skipn (Z.to_nat (len a)) (a ++ b) = b.
Proof.
  unfold len; rewrite Nat2Z.id, skipn_app, Nat.sub_diag, skipn_all.
  reflexivity.
Qed.

Lemma slice_prefix (a b : jsstring) : slice (a ++ b) 0 (len a) = a.
Proof.
  pose proof (len_nonneg a); pose proof (len_nonneg b).
  rewrite slice_inside by (rewrite len_app; lia).
  simpl; rewrite Z.sub_0_r; apply firstn_len_app.
Qed.

Lemma slice_from_suffix (a b : jsstring) : slice_from (a ++ b) (len a) = b.
Proof.
  pose proof (len_nonneg a); pose proof (len_nonneg b).
  unfold slice_from.
  rewrite slice_inside by (rewrite len_app; lia).
  rewrite skipn_len_app, len_app.
  replace (len a + len b - len a) with (len b) by lia.
  unfold len; rewrite Nat2Z.id; apply firstn_all.
Qed.

Lemma lastIndexOf_at_app (c : code_unit) (a b : jsstring) (i found : Z) :
  lastIndexOf_at c (a ++ b) i found
  = lastIndexOf_at c b (i + len a) (lastIndexOf_at c a i found).
Proof.
  revert i found; induction a as [|d a IH]; intros i found; simpl.
  - now rewrite len_nil, Z.add_0_r.
  - rewrite IH, len_cons; f_equal; lia.
Qed.

Lemma lastIndexOf_at_absent (c : code_unit) (s : jsstring) (i found : Z) :
  ~ In c s -> lastIndexOf_at c s i found = found.
Proof.
  revert i found; induction s as [|d s IH]; intros i found Hin; simpl.
  - reflexivity.
  - destruct (N.eqb_spec d c) as [->|_].
    + exfalso; apply Hin; now left.
    + apply IH; intros H; apply Hin; now right.
Qed.

Lemma lastIndexOf_at_range (c : code_unit) (s : jsstring) (i found : Z) :
  found < i ->
  found <= lastIndexOf_at c s i found < i + len s.
Proof.
  revert i found; induction s as [|d s IH]; intros i found Hlt; simpl.
  - rewrite len_nil; lia.
  - rewrite len_cons.
    destruct (d =? c)%N.
    + specialize (IH (i + 1) i); lia.
    + specialize (IH (i + 1) found); lia.
Qed.

Lemma lastIndexOf_range (c : code_unit) (s : jsstring) :
  -1 <= lastIndexOf c s < len s.
Proof.
  unfold lastIndexOf.
  pose proof (lastIndexOf_at_range c s 0 (-1)); lia.
Qed.

(** The last line feed before an offset inside a line is the one that
    closes the text before the line. *)
Lemma lastIndexOf_line_start (pre mid : jsstring) :
  ends_line pre -> is_line mid ->
  lastIndexOf LF (pre ++ mid) + 1 = len pre.
Proof.
  intros Hpre Hmid; unfold lastIndexOf.
  rewrite lastIndexOf_at_app, (lastIndexOf_at_absent LF mid) by exact Hmid.
  destruct Hpre as [->|[p ->]].
  - reflexivity.
  - rewrite lastIndexOf_at_app; simpl.
    rewrite len_app, len_cons, len_nil; lia.
Qed.

(** ** [split] and [join] *)

Lemma split_nonempty (c : code_unit) (s : jsstring) : split c s <> [].
Proof.
  induction s as [|d s IH]; simpl.
  - discriminate.
  - destruct (d =? c)%N; [discriminate|].
    destruct (split c s); [contradiction|discriminate].
Qed.

Lemma split_pieces (c : code_unit) (s : jsstring) :
  Forall (fun l => ~ In c l) (split c s).
Proof.
  induction s as [|d s IH]; simpl.
  - constructor; [intros []|constructor].
  - destruct (N.eqb_spec d c) as [->|Hne].
    + constructor; [intros []|exact IH].
    + destruct (split c s) as [|l ls].
      * constructor; [|constructor].
        intros [H|[]]; congruence.
      * inversion IH as [|? ? Hl Hls]; subst.
        constructor; [|exact Hls].
        intros [H|H]; [congruence|now apply Hl].
Qed.

Lemma join_split (c : code_unit) (s : jsstring) : join c (split c s) = s.
Proof.
  induction s as [|d s IH]; simpl.
  - reflexivity.
  - pose proof (split_nonempty c s) as Hne.
    destruct (N.eqb_spec d c) as [->|_].
    + destruct (split c s) as [|l ls]; [contradiction|].
      simpl in *; now rewrite IH.
    + destruct (split c s) as [|l ls]; [contradiction|].
      destruct ls; simpl in *; now rewrite IH.
Qed.

Lemma split_line (c : code_unit) (l : jsstring) :
  ~ In c l -> split c l = [l].
Proof.
  induction l as [|d l IH]; intros Hin; simpl.
  - reflexivity.
  - destruct (N.eqb_spec d c) as [->|_].
    + exfalso; apply Hin; now left.
    + rewrite IH; [reflexivity|].
      intros H; apply Hin; now right.
Qed.

Lemma split_line_cons (c : code_unit) (l s : jsstring) :
  ~ In c l -> split c (l ++ c :: s) = l :: split c s.
Proof.
  induction l as [|d l IH]; intros Hin; simpl.
  - now rewrite N.eqb_refl.
  - destruct (N.eqb_spec d c) as [->|_].
    + exfalso; apply Hin; now left.
    + rewrite IH; [reflexivity|].
      intros H; apply Hin; now right.
Qed.

Lemma split_join (c : code_unit) (pieces : list jsstring) :
  pieces <> [] -> Forall (fun l => ~ In c l) pieces ->
  split c (join c pieces) = pieces.
Proof.
  induction pieces as [|l ls IH]; intros Hne Hall; [contradiction|].
  inversion Hall as [|? ? Hl Hls]; subst.
  destruct ls as [|l' ls].
  - simpl; now apply split_line.
  - change (join c (l :: l' :: ls)) with (l ++ c :: join c (l' :: ls)).
    rewrite split_line_cons by exact Hl.
    f_equal; apply IH; [discriminate|exact Hls].
Qed.

(** Every text is the join of its lines, and in one way only
    ([split_join]). *)
Lemma text_lines (text : jsstring) :
  exists lines : list jsstring,
    lines <> [] /\ Forall is_line lines /\ text = join LF lines.
Proof.
  exists (split LF text); repeat split.
  - apply split_nonempty.
  - apply split_pieces.
  - symmetry; apply join_split.
Qed.

(** The first piece of a text that begins with a whole line. *)
Lemma split_first_line (line post : jsstring) :
  is_line line -> starts_line post ->
  hd [] (split LF (line ++ post)) = line.
Proof.
  intros Hline [->|[q ->]].
  - rewrite app_nil_r, split_line by exact Hline; reflexivity.
  - rewrite split_line_cons by exact Hline; reflexivity.
Qed.

Lemma slice_to_firstn (s : jsstring) (b : Z) :
  0 <= b <= len s -> slice s 0 b = firstn (Z.to_nat b) s.
Proof.
  intros Hb; pose proof (len_nonneg s).
  rewrite slice_inside by lia.
  now rewrite Z.sub_0_r.
Qed.

Lemma slice_from_skipn (s : jsstring) (a : Z) :
  0 <= a <= len s -> slice_from s a = skipn (Z.to_nat a) s.
Proof.
  intros Ha; unfold slice_from.
  rewrite slice_inside by lia.
  apply firstn_all2.
  rewrite length_skipn; unfold len in *; lia.
Qed.

(** ** [indentText] and [dedentText] line by line *)

Lemma two_spaces : js "  " = [SP; SP].
Proof. reflexivity. Qed.


Lemma len_replace_two_leading_spaces (l : jsstring) :
  len (replace_two_leading_spaces l) <= len l.
Proof.
  destruct l as [|c1 [|c2 rest]]; simpl; try lia.
  destruct (is_space c1 && is_space c2); rewrite ?len_cons; lia.
Qed.

Lemma join_cons (c : code_unit) (l : jsstring) (ls : list jsstring) :
  ls <> [] -> join c (l :: ls) = l ++ c :: join c ls.
Proof. destruct ls; [contradiction|reflexivity]. Qed.

Lemma len_join_indented (ls : list jsstring) :
  len (join LF (List.map (fun str => js "  " ++ str) ls))
  = len (join LF ls) + 2 * Z.of_nat (List.length ls).
Proof.
  induction ls as [|l ls IH]; [reflexivity|].
  destruct ls as [|l' ls].
  - simpl; rewrite !len_cons; lia.
  - cbn [List.map] in *.
    rewrite (join_cons LF l), (join_cons LF (js "  " ++ l)) by discriminate.
    rewrite two_spaces in *.
    rewrite !len_app, !len_cons, IH, ?len_app, ?len_cons, ?len_nil.
    cbn [List.length]; lia.
Qed.

Lemma len_join_dedented (ls : list jsstring) :
  len (join LF (List.map replace_two_leading_spaces ls)) <= len (join LF ls).
Proof.
  induction ls as [|l ls IH]; [reflexivity|].
  pose proof (len_replace_two_leading_spaces l).
  destruct ls as [|l' ls].
  - assumption.
  - cbn [List.map] in *.
    rewrite (join_cons LF l), (join_cons LF (replace_two_leading_spaces l))
      by discriminate.
    rewrite !len_app, !len_cons; lia.
Qed.

Lemma len_indentText (text : jsstring) :
  len (indentText text)
  = len text + 2 * Z.of_nat (List.length (split LF text)).
Proof.
  unfold indentText.
  now rewrite len_join_indented, join_split.
Qed.

Lemma len_indentText_grows (text : jsstring) :
  len text + 2 <= len (indentText text).
Proof.
  rewrite len_indentText.
  pose proof (split_nonempty LF text).
  destruct (split LF text); [contradiction|simpl List.length; lia].
Qed.

Lemma len_dedentText (text : jsstring) : len (dedentText text) <= len text.
Proof.
  unfold dedentText.
  pose proof (len_join_dedented (split LF text)) as H.
  now rewrite join_split in H.
Qed.

Lemma indented_lines (ls : list jsstring) :
  Forall is_line ls ->
  Forall is_line (List.map (fun str => js "  " ++ str) ls).
Proof.
  intros Hls; apply Forall_map.
  eapply Forall_impl; [|exact Hls].
  intros l Hl [H|[H|H]]; [discriminate H|discriminate H|now apply Hl].
Qed.

(** ** The regular expressions against the spec's words *)

Lemma space_run_leading (ws rest : jsstring) :
  Forall (fun c => is_space c = true) ws -> no_leading_space rest ->
  space_run (ws ++ rest) = ws.
Proof.
  intros Hws Hrest; induction Hws as [|c ws Hc _ IH]; simpl.
  - destruct rest as [|d r]; [reflexivity|].
    simpl; now rewrite (Hrest d r eq_refl).
  - now rewrite Hc, IH.
Qed.

Lemma match_leading_space_indentation (ws rest : jsstring) :
  Forall (fun c => is_space c = true) ws -> no_leading_space rest ->
  match match_leading_space (ws ++ rest) with
  | Some m => m
  | None => []
  end = ws.
Proof.
  intros Hws Hrest; unfold match_leading_space.
  rewrite (space_run_leading ws rest Hws Hrest).
  now destruct ws.
Qed.

Lemma match_opener_at_end_last (p : jsstring) (c : code_unit) :
  match_opener_at_end (p ++ [c]) = is_block_opener c.
Proof.
  induction p as [|d p IH]; simpl.
  - now rewrite andb_true_r, orb_false_r.
  - rewrite IH.
    destruct (p ++ [c]) eqn:E; [now destruct p|].
    now rewrite andb_false_r.
Qed.

Lemma match_opener_at_end_opens_block (line : jsstring) :
  match_opener_at_end line = opens_block line.
Proof.
  unfold opens_block.
  destruct line as [|c p] using rev_ind; [reflexivity|].
  now rewrite match_opener_at_end_last, rev_unit.
Qed.

Lemma match_only_spaces_true (line : jsstring) :
  match_only_spaces line = true <-> only_spaces line.
Proof.
  unfold only_spaces.
  destruct line as [|c1 [|c2 rest]]; simpl.
  - rewrite len_nil; split; [discriminate|lia].
  - rewrite len_cons, len_nil; split; [discriminate|lia].
  - rewrite !len_cons, !andb_true_iff, forallb_forall, Forall_forall.
    pose proof (len_nonneg rest).
    split.
    + intros [[H1 H2] Hr]; split; [lia|].
      intros x [<-|[<-|Hx]]; auto.
    + intros [_ Hall]; repeat split.
      * apply Hall; now left.
      * apply Hall; right; now left.
      * intros x Hx; apply Hall; right; now right.
Qed.

(** ** The line of the caret *)

Lemma is_line_app_l (a b : jsstring) : is_line (a ++ b) -> is_line a.
Proof. intros H Hin; apply H, in_or_app; now left. Qed.

Lemma before_caret (pre mid tail post : jsstring) :
  slice (pre ++ mid ++ tail ++ post) 0 (len pre + len mid) = pre ++ mid.
Proof.
  rewrite <- len_app, (app_assoc pre mid).
  apply slice_prefix.
Qed.

Lemma line_start_of_caret (pre mid tail post : jsstring) :
  ends_line pre -> is_line (mid ++ tail) ->
  lastIndexOf LF (slice (pre ++ mid ++ tail ++ post) 0 (len pre + len mid)) + 1
  = len pre.
Proof.
  intros Hpre Hline.
  rewrite before_caret.
  apply lastIndexOf_line_start; [assumption|].
  now apply is_line_app_l with tail.
Qed.

(** Wherever the caret stands in a line, the handlers see the whole line. *)
Lemma getCurrentlySelectedLine_whole (pre mid tail post : jsstring) (e : Z) :
  ends_line pre -> is_line (mid ++ tail) -> starts_line post ->
  getCurrentlySelectedLine
    (mkTextarea (pre ++ mid ++ tail ++ post) (len pre + len mid) e)
  = mid ++ tail.
Proof.
  intros Hpre Hline Hpost.
  unfold getCurrentlySelectedLine; cbn [value selectionStart].
  pose proof (line_start_of_caret pre mid tail post Hpre Hline) as Hls.
  pose proof (len_nonneg pre).
  set (k := lastIndexOf LF _) in *.
  assert (Harg : (if negb (k =? -1) then k + 1 else 0) = len pre).
  { destruct (Z.eqb_spec k (-1)); simpl; lia. }
  rewrite Harg, slice_from_suffix, app_assoc.
  now apply split_first_line.
Qed.

(** ** The text control keeps its selection inside its value *)

Lemma ToUint32_range (x : Z) : 0 <= ToUint32 x < 2 ^ 32.
Proof. unfold ToUint32; apply Z.mod_pos_bound; lia. Qed.

Lemma ToUint32_small (x : Z) : 0 <= x < 2 ^ 32 -> ToUint32 x = x.
Proof. intros Hx; unfold ToUint32; now apply Z.mod_small. Qed.

Lemma ToUint32_negative (x : Z) :
  - 2 ^ 31 <= x < 0 -> ToUint32 x = x + 2 ^ 32.
Proof.
  intros Hx; unfold ToUint32.
  symmetry; apply (Z.mod_unique_pos x (2 ^ 32) (-1)); lia.
Qed.

Lemma setSelectionRange_valid (a b : Z) (t : textarea) :
  valid_selection (setSelectionRange a b t).
Proof.
  unfold setSelectionRange, valid_selection.
  pose proof (ToUint32_range a); pose proof (ToUint32_range b).
  pose proof (len_nonneg (value t)).
  destruct (Z.leb_spec (Z.min (ToUint32 b) (len (value t)))
              (Z.min (ToUint32 a) (len (value t)))); simpl; lia.
Qed.

Lemma insertText_value_length (text : jsstring) (t : textarea) :
  valid_selection t ->
  len (value (insertText text t))
  = selectionStart t + len text + (len (value t) - selectionEnd t).
Proof.
  intros (H0 & Hse & Hen); unfold insertText; simpl.
  rewrite !len_app; unfold len in *.
  rewrite length_firstn, length_skipn; lia.
Qed.

Lemma insertText_valid (text : jsstring) (t : textarea) :
  valid_selection t -> valid_selection (insertText text t).
Proof.
  intros Hv; pose proof (insertText_value_length text t Hv) as Hlen.
  destruct Hv as (H0 & Hse & Hen).
  pose proof (len_nonneg text).
  unfold valid_selection; rewrite Hlen; simpl; lia.
Qed.

Lemma setSelectionRange_placed (a b : Z) (t : textarea) :
  len (value t) <= 2 ^ 31 ->
  - 2 ^ 31 <= a < 2 ^ 32 -> - 2 ^ 31 <= b < 2 ^ 32 ->
  setSelectionRange a b t
  = let n := len (value t) in
    if placed n b <=? placed n a
    then mkTextarea (value t) (placed n b) (placed n b)
    else mkTextarea (value t) (placed n a) (placed n b).
Proof.
  intros Hn Ha Hb.
  assert (Hp : forall x, - 2 ^ 31 <= x < 2 ^ 32 ->
               Z.min (ToUint32 x) (len (value t)) = placed (len (value t)) x).
  { intros x Hx; unfold placed.
    destruct (Z.ltb_spec x 0).
    - rewrite ToUint32_negative by lia; lia.
    - now rewrite ToUint32_small by lia. }
  unfold setSelectionRange; cbv zeta.
  now rewrite (Hp a Ha), (Hp b Hb).
Qed.

Lemma setSelectionRange_inside (a b : Z) (t : textarea) :
  len (value t) <= 2 ^ 31 -> 0 <= a <= b -> b <= len (value t) ->
  setSelectionRange a b t = mkTextarea (value t) a b.
Proof.
  intros Hn Hab Hb.
  rewrite setSelectionRange_placed by lia; cbv zeta.
  unfold placed.
  destruct (Z.ltb_spec a 0), (Z.ltb_spec b 0); try lia.
  rewrite !Z.min_l by lia.
  destruct (Z.leb_spec b a); [|reflexivity].
  now replace a with b by lia.
Qed.

Lemma insertText_slices (text : jsstring) (t : textarea) :
  valid_selection t ->
  insertText text t
  = mkTextarea
      (slice (value t) 0 (selectionStart t) ++ text
         ++ slice_from (value t) (selectionEnd t))
      (selectionStart t + len text) (selectionStart t + len text).
Proof.
  intros (H0 & Hse & Hen); unfold insertText.
  now rewrite slice_to_firstn, slice_from_skipn by lia.
Qed.


(** What Enter inserts, from the line the handler reads. *)
Lemma handleEnter_insertText (t : textarea) (ws rest : jsstring) :
  getCurrentlySelectedLine t = ws ++ rest ->
  Forall (fun c => is_space c = true) ws -> no_leading_space rest ->
  handleEnter t
  = insertText
      (LF :: ws ++ (if opens_block (ws ++ rest) then [SP; SP] else [])) t.
Proof.
  intros Hline Hws Hrest; unfold handleEnter.
  rewrite Hline, match_leading_space_indentation by assumption.
  rewrite match_opener_at_end_opens_block, two_spaces.
  destruct (opens_block (ws ++ rest)); [reflexivity|].
  now rewrite app_nil_r.
Qed.



Lemma or_number_zero (a : Z) : or_number a 0 = a.
Proof. unfold or_number; destruct (Z.eqb_spec a 0); congruence. Qed.

(** Tab on a selection first replaces the block that runs from the start
    of the first selected line to the end of the selection. *)
Lemma replace_block (pre mid tail post newText : jsstring) (e : Z) :
  let buffer := pre ++ mid ++ tail ++ post in
  len pre + len mid < e <= len buffer -> engine_string buffer ->
  insertText newText
    (setSelectionRange (len pre) e
       (mkTextarea buffer (len pre + len mid) e))
  = mkTextarea (pre ++ newText ++ slice_from buffer e)
      (len pre + len newText) (len pre + len newText).
Proof.
  intros buffer He Hengine.
  pose proof (len_nonneg pre); pose proof (len_nonneg mid).
  unfold engine_string in Hengine.
  rewrite setSelectionRange_inside by (cbn [value]; lia).
  rewrite insertText_slices
    by (unfold valid_selection; cbn [value selectionStart selectionEnd]; lia).
  cbn [value selectionStart selectionEnd].
  unfold buffer at 1; now rewrite slice_prefix.
Qed.

(** ** Line by line *)

Lemma per_line_join (change : jsstring -> jsstring -> Prop)
    (f : jsstring -> jsstring) (lines : list jsstring) :
  (forall l, change l (f l)) ->
  lines <> [] -> Forall is_line lines ->
  per_line change (join LF lines) (join LF (List.map f lines)).
Proof.
  intros Hf Hne Hlines.
  induction lines as [|l ls IH]; [contradiction|].
  inversion Hlines as [|? ? Hl Hls]; subst.
  destruct ls as [|l' ls].
  - apply per_line_last; [exact Hl|apply Hf].
  - cbn [List.map].
    rewrite (join_cons LF l), (join_cons LF (f l)) by discriminate.
    apply per_line_more; [exact Hl|apply Hf|].
    apply IH; [discriminate|exact Hls].
Qed.

Lemma per_line_text (change : jsstring -> jsstring -> Prop)
    (f : jsstring -> jsstring) (text : jsstring) :
  (forall l, change l (f l)) ->
  per_line change text (join LF (List.map f (split LF text))).
Proof.
  intros Hf.
  rewrite <- (join_split LF text) at 1.
  apply per_line_join;
    [exact Hf|apply split_nonempty|apply split_pieces].
Qed.

Lemma replace_two_leading_spaces_strips (l : jsstring) :
  strips_two_spaces l (replace_two_leading_spaces l).
Proof.
  unfold replace_two_leading_spaces.
  destruct l as [|c1 [|c2 rest]];
    try (apply strips_nothing; intros ? ? ? H; discriminate H).
  destruct (is_space c1) eqn:E1; [destruct (is_space c2) eqn:E2|]; simpl.
  - now apply strips_both.
  - apply strips_nothing; intros ? ? ? H; inversion H; subst; now right.
  - apply strips_nothing; intros ? ? ? H; inversion H; subst; now left.
Qed.


(** Side conditions on a concrete buffer. *)
Ltac concrete :=
  unfold valid_selection, engine_string, is_line, len; simpl;
  first [lia | intuition discriminate].

(** ** Theorems *)

(** C1.  Every command leaves a valid selection: from a buffer and a
    selection with [0 <= start <= end <= length(buffer)], the result of Tab
    (with or without shift), Enter or the closing brace has
    [0 <= start <= end <= length(newBuffer)]. *)
Theorem handleKeyDown_selection_valid (event : KeyEvent) (t : textarea) :
  valid_selection t -> valid_selection (handleKeyDown event t).
Proof.
  intros Hv.
  destruct event as [shiftKey| |]; simpl.
  - unfold handleTab.
    destruct (selectionStart t =? selectionEnd t), shiftKey;
      repeat first [ apply setSelectionRange_valid
                   | apply insertText_valid
                   | assumption
                   | match goal with
                     | |- context [if ?c then _ else _] => destruct c
                     end ].
  - unfold handleBracketClose.
    apply insertText_valid.
    destruct (_ && _); [apply setSelectionRange_valid|assumption].
  - unfold handleEnter.
    now apply insertText_valid.
Qed.

Lemma handleKeyDown_selection_valid_witness :
  valid_selection
    (handleKeyDown (Tab false) (mkTextarea (js "a" ++ LF :: js "b") 0 3)).
Proof.
  apply handleKeyDown_selection_valid.
  concrete.
Defined.

(** C4.  [dedentText] works on each line on its own: a text of one line
    is sent to the line without its first two characters when both are
    whitespace, and to that very line otherwise; a line, a line feed and
    more text are sent to what the line is sent to, a line feed and what
    the rest is sent to.  In particular a line with exactly one leading
    whitespace character stays as it is, and a line with two leading
    whitespace characters or more loses exactly the first two. *)
Theorem dedentText_per_line :
  (forall text : jsstring,
      per_line strips_two_spaces text (dedentText text))
  /\ (forall (c : code_unit) (rest : jsstring),
         is_line (c :: rest) -> is_space c = true ->
         (forall d r, rest = d :: r -> is_space d = false) ->
         dedentText (c :: rest) = c :: rest)
  /\ (forall (c1 c2 : code_unit) (rest : jsstring),
         is_line (c1 :: c2 :: rest) ->
         is_space c1 = true -> is_space c2 = true ->
         dedentText (c1 :: c2 :: rest) = rest).
Proof.
  split; [|split].
  - intros text; unfold dedentText.
    apply per_line_text, replace_two_leading_spaces_strips.
  - intros c rest Hline _ Hrest.
    unfold dedentText.
    rewrite split_line by exact Hline.
    simpl join.
    destruct rest as [|d r]; [reflexivity|].
    simpl; now rewrite (Hrest d r eq_refl), andb_false_r.
  - intros c1 c2 rest Hline H1 H2.
    unfold dedentText.
    rewrite split_line by exact Hline.
    simpl; now rewrite H1, H2.
Qed.

Lemma dedentText_per_line_witness :
  dedentText (SP :: SP :: js "  a") = js "  a".
Proof.
  apply (proj2 (proj2 dedentText_per_line) SP SP (js "  a")).
  - concrete.
  - reflexivity.
  - reflexivity.
Defined.

(** C9.  [indentText] puts exactly two spaces in front of every line of
    its input and keeps the line feeds between them: a text of one line is
    sent to two spaces and the line, and a line, a line feed and more text
    are sent to two spaces, the line, a line feed and what the rest is sent
    to.  An empty line becomes two spaces, and so does the empty text,
    which is one empty line. *)
Theorem indentText_every_line :
  (forall text : jsstring,
      per_line gains_two_spaces text (indentText text))
  /\ indentText [] = [SP; SP].
Proof.
  split; [|reflexivity].
  intros text; unfold indentText.
  apply (per_line_text gains_two_spaces (fun str => js "  " ++ str)).
  intros l; reflexivity.
Qed.

(** C7.  Indenting a text and then dedenting it gives the text back, for
    every text: [dedentText (indentText text) = text]. *)
Theorem dedentText_indentText (text : jsstring) :
  dedentText (indentText text) = text.
Proof.
  unfold dedentText, indentText.
  rewrite split_join.
  - rewrite map_map.
    rewrite (map_ext _ (fun l => l)) by reflexivity.
    rewrite map_id; apply join_split.
  - pose proof (split_nonempty LF text).
    destruct (split LF text); [contradiction|discriminate].
  - apply indented_lines, split_pieces.
Qed.















(** ** The fence pattern *)

Lemma strip_prefix_some (p s rest : jsstring) :
  strip_prefix p s = Some rest -> s = p ++ rest.
Proof.
  revert s; induction p as [|a p IH]; intros s H; simpl in H.
  - now inversion H.
  - destruct s as [|b s]; [discriminate|].
    destruct (N.eqb_spec a b) as [->|_]; [|discriminate].
    simpl; f_equal; now apply IH.
Qed.

Lemma strip_prefix_app (p rest : jsstring) :
  strip_prefix p (p ++ rest) = Some rest.
Proof.
  induction p as [|a p IH]; simpl; [reflexivity|].
  now rewrite N.eqb_refl.
Qed.

Lemma in_literal (p s rest : jsstring) :
  In rest (literal p s) <-> s = p ++ rest.
Proof.
  unfold literal; split.
  - destruct (strip_prefix p s) eqn:E; [|intros []].
    intros [->|[]]; now apply strip_prefix_some.
  - intros ->; rewrite strip_prefix_app; now left.
Qed.

Lemma in_and_then (l : rests) (piece : jsstring -> rests) (r : jsstring) :
  In r (l >>= piece) <-> exists x, In x l /\ In r (piece x).
Proof. apply in_flat_map. Qed.

Lemma in_one (class : code_unit -> bool) (s r : jsstring) :
  In r (one class s) -> exists c, s = c :: r /\ class c = true.
Proof.
  destruct s as [|c s]; simpl; [intros []|].
  destruct (class c) eqn:E; [|intros []].
  intros [->|[]]; now exists c.
Qed.

Lemma in_greedy_star (class : code_unit -> bool) (s r : jsstring) :
  In r (greedy_star class s) -> exists m, s = m ++ r.
Proof.
  induction s as [|c s IH]; simpl.
  - intros [<-|[]]; now exists [].
  - destruct (class c).
    + intros H; apply in_app_or in H as [H|[<-|[]]].
      * destruct (IH H) as [m ->]; now exists (c :: m).
      * now exists [].
    + intros [<-|[]]; now exists [].
Qed.

Lemma greedy_star_self (class : code_unit -> bool) (s : jsstring) :
  In s (greedy_star class s).
Proof.
  destruct s as [|c s]; simpl; [now left|].
  destruct (class c); [apply in_or_app; right|]; now left.
Qed.

Lemma in_greedy_plus (class : code_unit -> bool) (s r : jsstring) :
  In r (greedy_plus class s) -> exists m, s = m ++ r.
Proof.
  unfold greedy_plus; intros H.
  apply in_and_then in H as (x & Hx & Hr).
  apply in_one in Hx as (c & -> & _).
  apply in_greedy_star in Hr as [m ->].
  now exists (c :: m).
Qed.

Lemma in_lazy_star (class : code_unit -> bool) (s r : jsstring) :
  In r (lazy_star class s) -> exists m, s = m ++ r.
Proof.
  induction s as [|c s IH]; simpl.
  - intros [<-|[]]; now exists [].
  - intros [<-|H]; [now exists []|].
    destruct (class c); [|destruct H].
    destruct (IH H) as [m ->]; now exists (c :: m).
Qed.

Lemma is_any_true (c : code_unit) : is_any c = true.
Proof. unfold is_any; now destruct (is_space c). Qed.

Lemma lazy_star_any_rest (a b : jsstring) : In b (lazy_star is_any (a ++ b)).
Proof.
  induction a as [|c a IH]; simpl.
  - destruct b; now left.
  - right; now rewrite is_any_true.
Qed.

Lemma in_optional (piece : jsstring -> rests) (s r : jsstring) :
  In r (optional piece s) -> In r (piece s) \/ r = s.
Proof.
  unfold optional; intros H.
  apply in_app_or in H as [H|[<-|[]]]; auto.
Qed.

Lemma in_language (s r : jsstring) :
  In r (language s) -> exists m, s = m ++ r.
Proof.
  unfold language; intros H.
  repeat (apply in_app_or in H as [H|H]).
  - apply in_and_then in H as (x & Hx & Hr).
    apply in_literal in Hx as ->.
    apply in_optional in Hr as [Hr| ->].
    + apply in_literal in Hr as ->; now exists (js "tsx").
    + now exists (js "ts").
  - apply in_and_then in H as (x & Hx & Hr).
    apply in_literal in Hx as ->.
    apply in_optional in Hr as [Hr| ->].
    + apply in_literal in Hr as ->; now exists (js "jsx").
    + now exists (js "js").
  - apply in_literal in H as ->; now exists (js "html").
  - apply in_literal in H as ->; now exists (js "xml").
Qed.

(** Whatever the pattern matches begins and ends with three backticks. *)
Lemma match_fence_shape (s r : jsstring) :
  In r (match_fence s) -> exists m, s = js "```" ++ m ++ js "```" ++ r.
Proof.
  unfold match_fence; intros H.
  apply in_and_then in H as (s6 & H & H6).
  apply in_and_then in H as (s5 & H & H5).
  apply in_and_then in H as (s4 & H & H4).
  apply in_and_then in H as (s3 & H & H3).
  apply in_and_then in H as (s2 & H & H2).
  apply in_and_then in H as (s1 & H & H1).
  apply in_literal in H as ->.
  apply in_language in H1 as [m1 ->].
  apply in_greedy_star in H2 as [m2 ->].
  apply in_greedy_plus in H3 as [m3 ->].
  apply in_lazy_star in H4 as [m4 ->].
  apply in_literal in H6 as ->.
  apply in_optional in H5 as [H5| ->].
  - apply in_and_then in H5 as (x & Hx & H5).
    apply in_one in Hx as (c & -> & _).
    apply in_greedy_plus in H5 as [m5 ->].
    exists (m1 ++ m2 ++ m3 ++ m4 ++ c :: m5).
    now rewrite <- !app_assoc.
  - exists (m1 ++ m2 ++ m3 ++ m4).
    now rewrite <- !app_assoc.
Qed.

Lemma match_fence_rest (s r : jsstring) :
  In r (match_fence s) ->
  firstn (List.length s - List.length r) s ++ r = s
  /\ (List.length r < List.length s)%nat.
Proof.
  intros H; apply match_fence_shape in H as [m ->].
  rewrite !app_assoc.
  set (matched := (js "```" ++ m) ++ js "```").
  assert (Hlen : (0 < List.length matched)%nat).
  { unfold matched; rewrite !length_app; simpl; lia. }
  rewrite length_app.
  replace (List.length matched + List.length r - List.length r)%nat
    with (List.length matched) by lia.
  rewrite firstn_app, Nat.sub_diag, firstn_all; simpl.
  rewrite app_nil_r; split; [reflexivity|lia].
Qed.

Lemma match_fence_nil : match_fence [] = [].
Proof. reflexivity. Qed.

(** More fuel than the length of the input changes nothing. *)
Lemma replace_fences_fuel (replacer : jsstring -> jsstring)
    (fuel : nat) (s : jsstring) :
  (List.length s <= fuel)%nat ->
  replace_fences replacer fuel s
  = replace_fences replacer (List.length s) s.
Proof.
  assert (H : forall n fuel1 fuel2 (s : jsstring),
             (List.length s <= n)%nat ->
             (List.length s <= fuel1)%nat -> (List.length s <= fuel2)%nat ->
             replace_fences replacer fuel1 s
             = replace_fences replacer fuel2 s).
  { induction n as [|n IH]; intros fuel1 fuel2 t Hn H1 H2.
    - destruct t; [|simpl in Hn; lia].
      destruct fuel1, fuel2; reflexivity.
    - destruct t as [|c t]; [destruct fuel1, fuel2; reflexivity|].
      destruct fuel1 as [|fuel1]; [simpl in H1; lia|].
      destruct fuel2 as [|fuel2]; [simpl in H2; lia|].
      simpl replace_fences.
      destruct (match_fence (c :: t)) as [|r rs] eqn:E.
      + f_equal; apply IH; simpl in *; lia.
      + assert (Hr : In r (match_fence (c :: t))) by (rewrite E; now left).
        apply match_fence_rest in Hr as [_ Hr].
        f_equal; apply IH; simpl in *; lia. }
  intros Hfuel; apply (H (List.length s)); lia.
Qed.

(** ** The two replacements of [htmlEncode] *)

Lemma is_special_cases (c : code_unit) :
  is_special c = true -> c = 60%N \/ c = 38%N \/ c = 34%N.
Proof.
  unfold is_special.
  destruct (N.eqb_spec c 60), (N.eqb_spec c 38), (N.eqb_spec c 34); auto;
    discriminate.
Qed.

(** The table has an entry for every character of the class, and the
    entry is the character's entity. *)
Lemma escape_special_entities (str : jsstring) :
  escape_special str = flat_map entity_of str.
Proof.
  unfold escape_special; apply flat_map_ext; intros c.
  destruct (is_special c) eqn:E.
  - apply is_special_cases in E as [->|[->| ->]]; reflexivity.
  - unfold is_special in E; unfold entity_of.
    destruct (N.eqb_spec c 60), (N.eqb_spec c 38), (N.eqb_spec c 34);
      try discriminate; reflexivity.
Qed.

Lemma escape_special_app (a b : jsstring) :
  escape_special (a ++ b) = escape_special a ++ escape_special b.
Proof. apply flat_map_app. Qed.

Lemma entity_of_plain (c x : code_unit) :
  In x (entity_of c) -> is_special x = false \/ (x = 38%N /\ is_special c = true).
Proof.
  unfold entity_of.
  destruct (N.eqb_spec c 60) as [->|H60];
    [simpl; intuition (subst; auto)|].
  destruct (N.eqb_spec c 38) as [->|H38];
    [simpl; intuition (subst; auto)|].
  destruct (N.eqb_spec c 34) as [->|H34];
    [simpl; intuition (subst; auto)|].
  intros [<-|[]]; left.
  unfold is_special.
  destruct (N.eqb_spec c 60), (N.eqb_spec c 38), (N.eqb_spec c 34);
    try contradiction; reflexivity.
Qed.

Lemma entity_of_text (c : code_unit) (rest : jsstring) :
  entity_text rest -> entity_text (entity_of c ++ rest).
Proof.
  intros Hrest; unfold entity_of.
  destruct (N.eqb_spec c 60) as [->|H60]; [now apply entity_text_lt|].
  destruct (N.eqb_spec c 38) as [->|H38]; [now apply entity_text_amp|].
  destruct (N.eqb_spec c 34) as [->|H34]; [now apply entity_text_quot|].
  apply entity_text_plain; [|exact Hrest].
  unfold is_special.
  destruct (N.eqb_spec c 60), (N.eqb_spec c 38), (N.eqb_spec c 34);
    try contradiction; reflexivity.
Qed.

Lemma entity_of_count_gt (c : code_unit) :
  count_occ N.eq_dec (entity_of c) 62%N = count_occ N.eq_dec [c] 62%N.
Proof.
  unfold entity_of.
  destruct (N.eqb_spec c 60) as [->|H60]; [reflexivity|].
  destruct (N.eqb_spec c 38) as [->|H38]; [reflexivity|].
  destruct (N.eqb_spec c 34) as [->|H34]; reflexivity.
Qed.

Lemma escape_special_count_gt (str : jsstring) :
  count_occ N.eq_dec (escape_special str) 62%N
  = count_occ N.eq_dec str 62%N.
Proof.
  rewrite escape_special_entities.
  induction str as [|c str IH]; [reflexivity|].
  change (flat_map entity_of (c :: str))
    with (entity_of c ++ flat_map entity_of str).
  unfold jsstring, code_unit in *.
  rewrite count_occ_app, IH, entity_of_count_gt.
  simpl; now destruct (N.eq_dec c 62).
Qed.

Lemma replace_fences_count_gt (fuel : nat) (s : jsstring) :
  count_occ N.eq_dec (replace_fences escape_special fuel s) 62%N
  = count_occ N.eq_dec s 62%N.
Proof.
  revert s; induction fuel as [|fuel IH]; intros s; [reflexivity|].
  simpl replace_fences.
  destruct (match_fence s) as [|r rs] eqn:E.
  - destruct s as [|c s]; [reflexivity|].
    simpl; rewrite IH; reflexivity.
  - assert (Hr : In r (match_fence s)) by (rewrite E; now left).
    apply match_fence_rest in Hr as [Hr _].
    rewrite <- Hr at 3.
    now rewrite !count_occ_app, IH, escape_special_count_gt.
Qed.

Lemma has_fence_tail (c : code_unit) (s : jsstring) :
  ~ has_fence (c :: s) -> ~ has_fence s.
Proof.
  intros H (a & b & ->); apply H.
  now exists (c :: a), b.
Qed.

Lemma match_fence_without_fence (s : jsstring) :
  ~ has_fence s -> match_fence s = [].
Proof.
  intros H.
  destruct (match_fence s) as [|r rs] eqn:E; [reflexivity|].
  exfalso; apply H.
  destruct (match_fence_shape s r) as [m ->]; [rewrite E; now left|].
  now exists [], (m ++ js "```" ++ r).
Qed.

Lemma replace_fences_without_fence (replacer : jsstring -> jsstring)
    (fuel : nat) (s : jsstring) :
  ~ has_fence s -> replace_fences replacer fuel s = s.
Proof.
  revert s; induction fuel as [|fuel IH]; intros s H; [reflexivity|].
  simpl; rewrite match_fence_without_fence by exact H.
  destruct s as [|c s]; [reflexivity|].
  f_equal; apply IH; now apply has_fence_tail with c.
Qed.

(** In a text that ends with its only backticks, three of them, a match
    can only end at the end. *)
Lemma only_fence_at_end (x m r : jsstring) :
  ~ In 96%N x -> x ++ js "```" = m ++ js "```" ++ r -> r = [].
Proof.
  revert m; induction x as [|c x IH]; intros m Hx H.
  - apply (f_equal (@List.length code_unit)) in H.
    rewrite !length_app in H; simpl in H.
    destruct r; [reflexivity|simpl in H; lia].
  - destruct m as [|d m].
    + simpl in H; inversion H; subst.
      exfalso; apply Hx; now left.
    + simpl in H; inversion H; subst.
      apply (IH m); [|assumption].
      intros Hin; apply Hx; now right.
Qed.

Lemma and_then_intro (l : rests) (piece : jsstring -> rests)
    (x r : jsstring) :
  In x l -> In r (piece x) -> In r (l >>= piece).
Proof. intros Hx Hr; apply in_and_then; now exists x. Qed.

(** A block of one of the six languages, closed by the only backticks
    after its first line, is matched whole. *)
Lemma match_fence_block (lang body : jsstring) :
  In lang [js "ts"; js "tsx"; js "js"; js "jsx"; js "html"; js "xml"] ->
  ~ In 96%N body ->
  exists rs, match_fence (js "```" ++ lang ++ LF :: body ++ js "```")
             = [] :: rs.
Proof.
  intros Hlang Hbody.
  set (s := js "```" ++ lang ++ LF :: body ++ js "```").
  assert (Hin : In [] (match_fence s)).
  { unfold match_fence.
    apply and_then_intro with (js "```"); [|now left].
    apply and_then_intro with (js "```");
      [|unfold optional; apply in_or_app; right; now left].
    apply and_then_intro with (body ++ js "```");
      [|apply lazy_star_any_rest].
    apply and_then_intro with (LF :: body ++ js "```");
      [|unfold greedy_plus; apply and_then_intro with (body ++ js "```");
        [now left|apply greedy_star_self]].
    apply and_then_intro with (LF :: body ++ js "```"); [|now left].
    apply and_then_intro with (lang ++ LF :: body ++ js "```");
      [apply in_literal; reflexivity|].
    unfold language.
    simpl in Hlang.
    destruct Hlang as [<-|[<-|[<-|[<-|[<-|[<-|[]]]]]]]; simpl; auto. }
  destruct (match_fence s) as [|r rs] eqn:E; [destruct Hin|].
  exists rs; f_equal.
  assert (Hr : In r (match_fence s)) by (rewrite E; now left).
  apply match_fence_shape in Hr as [m Hm].
  unfold s in Hm.
  apply app_inv_head in Hm.
  change (lang ++ LF :: body ++ js "```")
    with (lang ++ [LF] ++ body ++ js "```") in Hm.
  rewrite !app_assoc in Hm; rewrite <- (app_assoc m) in Hm.
  apply only_fence_at_end in Hm; [exact Hm|].
  intros Hin'.
  apply in_app_or in Hin' as [Hin'|Hin']; [|now apply Hbody].
  apply in_app_or in Hin' as [Hin'|[Hin'|[]]]; [|discriminate].
  simpl in Hlang.
  destruct Hlang as [<-|[<-|[<-|[<-|[<-|[<-|[]]]]]]]; simpl in Hin';
    intuition discriminate.
Qed.

Lemma replace_fences_nil (replacer : jsstring -> jsstring) (fuel : nat) :
  replace_fences replacer fuel [] = [].
Proof. destruct fuel; reflexivity. Qed.

Lemma replace_fences_whole (replacer : jsstring -> jsstring)
    (s : jsstring) (rs : rests) :
  s <> [] -> match_fence s = [] :: rs ->
  replace_fences replacer (List.length s) s = replacer s.
Proof.
  intros Hs Hm.
  destruct s as [|c s]; [contradiction|].
  change (List.length (c :: s)) with (S (List.length s)).
  cbn [replace_fences]; rewrite Hm.
  rewrite replace_fences_nil, app_nil_r.
  cbn [List.length]; rewrite Nat.sub_0_r.
  change (S (List.length s)) with (List.length (c :: s)).
  now rewrite firstn_all.
Qed.

Lemma entity_text_clean (text : jsstring) :
  entity_text text -> ~ In 60%N text /\ ~ In 34%N text.
Proof.
  induction 1 as [|c rest Hc _ [IH1 IH2]|rest _ [IH1 IH2]
                  |rest _ [IH1 IH2]|rest _ [IH1 IH2]].
  - split; intros [].
  - split; (intros [->|H]; [discriminate Hc|auto]).
  - split; simpl; intuition discriminate.
  - split; simpl; intuition discriminate.
  - split; simpl; intuition discriminate.
Qed.

Lemma flat_map_entity_text (s : jsstring) : entity_text (flat_map entity_of s).
Proof.
  induction s as [|c s IH]; [constructor|].
  now apply entity_of_text.
Qed.

(** X1.  What [htmlEncode] answers is free of markup characters: it has
    no [<] and no double quote, and each of its [&] begins one of the
    entities [&lt;], [&amp;] and [&quot;]. *)
Theorem htmlEncode_entity_text (sHtml : jsstring) :
  entity_text (htmlEncode sHtml)
  /\ ~ In 60%N (htmlEncode sHtml) /\ ~ In 34%N (htmlEncode sHtml).
Proof.
  assert (H : entity_text (htmlEncode sHtml)).
  { unfold htmlEncode; rewrite escape_special_entities.
    apply flat_map_entity_text. }
  split; [exact H|now apply entity_text_clean].
Qed.

(** X2.  [htmlEncode] never touches a [>], though the table of its
    replacers has an entry for it: the answer has as many [>] as the
    input. *)
Theorem htmlEncode_keeps_gt (sHtml : jsstring) :
  count_occ N.eq_dec (htmlEncode sHtml) 62%N
  = count_occ N.eq_dec sHtml 62%N.
Proof.
  unfold htmlEncode.
  now rewrite escape_special_count_gt, replace_fences_count_gt.
Qed.

(** X3.  A text without three backticks in a row is escaped once: each
    [<], [&] and double quote gives way to its entity and every other
    character stays. *)
Theorem htmlEncode_without_fence (sHtml : jsstring) :
  ~ has_fence sHtml -> htmlEncode sHtml = flat_map entity_of sHtml.
Proof.
  intros H; unfold htmlEncode.
  now rewrite replace_fences_without_fence, escape_special_entities.
Qed.

Lemma htmlEncode_without_fence_witness :
  htmlEncode (js "a<b && c") = js "a&lt;b &amp;&amp; c".
Proof.
  apply (htmlEncode_without_fence (js "a<b && c")).
  intros (a & b & H).
  assert (Hin : In 96%N (js "a<b && c")).
  { rewrite H; apply in_or_app; right; now left. }
  simpl in Hin; intuition discriminate.
Defined.

(** X4.  A fenced block of one of the six languages is escaped twice: in
    the body of the block a [<] becomes [&amp;lt;], an [&] becomes
    [&amp;amp;] and a double quote [&amp;quot;]. *)
Theorem htmlEncode_fenced_block (lang body : jsstring) :
  In lang [js "ts"; js "tsx"; js "js"; js "jsx"; js "html"; js "xml"] ->
  ~ In 96%N body ->
  htmlEncode (js "```" ++ lang ++ LF :: body ++ js "```")
  = js "```" ++ lang
      ++ LF :: flat_map entity_of (flat_map entity_of body) ++ js "```".
Proof.
  intros Hlang Hbody.
  destruct (match_fence_block lang body Hlang Hbody) as [rs Hm].
  unfold htmlEncode.
  rewrite (replace_fences_whole escape_special _ rs); [|discriminate|exact Hm].
  rewrite !escape_special_entities.
  change (LF :: body ++ js "```") with ([LF] ++ body ++ js "```").
  rewrite !flat_map_app.
  change (LF :: flat_map entity_of (flat_map entity_of body) ++ js "```")
    with ([LF] ++ flat_map entity_of (flat_map entity_of body) ++ js "```").
  f_equal; f_equal.
  simpl in Hlang.
  destruct Hlang as [<-|[<-|[<-|[<-|[<-|[<-|[]]]]]]]; reflexivity.
Qed.

Lemma htmlEncode_fenced_block_witness :
  htmlEncode (js "```ts" ++ LF :: js "a<b" ++ js "```")
  = js "```ts" ++ LF :: js "a&amp;lt;b" ++ js "```".
Proof.
  apply (htmlEncode_fenced_block (js "ts") (js "a<b")).
  - now left.
  - simpl; intuition discriminate.
Defined.

(** ** Every caret stands in a line *)

Lemma text_before_caret (s : jsstring) :
  exists pre mid, s = pre ++ mid /\ ends_line pre /\ is_line mid.
Proof.
  induction s as [|c s (pre & mid & -> & Hpre & Hmid)] using rev_ind.
  - exists [], []; repeat split; [now left|intros []].
  - destruct (N.eqb_spec c LF) as [->|Hc].
    + exists ((pre ++ mid) ++ [LF]), []; repeat split.
      * now rewrite app_nil_r.
      * right; now exists (pre ++ mid).
      * intros [].
    + exists pre, (mid ++ [c]); repeat split.
      * now rewrite app_assoc.
      * exact Hpre.
      * intros Hin; apply in_app_or in Hin as [Hin|[Hin|[]]];
          [now apply Hmid|now apply Hc].
Qed.

Lemma text_after_caret (s : jsstring) :
  exists tail post, s = tail ++ post /\ is_line tail /\ starts_line post.
Proof.
  induction s as [|c s (tail & post & -> & Htail & Hpost)].
  - exists [], []; repeat split; [intros []|now left].
  - destruct (N.eqb_spec c LF) as [->|Hc].
    + exists [], (LF :: tail ++ post); repeat split;
        [intros []|right; now exists (tail ++ post)].
    + exists (c :: tail), post; repeat split; [|exact Hpost].
      intros [Hin|Hin]; [now apply Hc|now apply Htail].
Qed.

Lemma is_line_app (a b : jsstring) :
  is_line a -> is_line b -> is_line (a ++ b).
Proof.
  intros Ha Hb Hin; apply in_app_or in Hin as [Hin|Hin]; auto.
Qed.

(** X5.  Every valid selection start stands in a line of the buffer: the
    buffer is some text that is empty or ends with a line feed, then a line
    around the selection start, then some text that is empty or begins with
    a line feed; and that line is what [getCurrentlySelectedLine]
    answers. *)
Theorem getCurrentlySelectedLine_line_of_start (t : textarea) :
  valid_selection t ->
  exists pre mid tail post : jsstring,
    value t = pre ++ mid ++ tail ++ post
    /\ selectionStart t = len pre + len mid
    /\ ends_line pre /\ is_line (mid ++ tail) /\ starts_line post
    /\ getCurrentlySelectedLine t = mid ++ tail.
Proof.
  intros (H0 & Hse & Hen).
  destruct t as [v s e]; cbn [value selectionStart selectionEnd] in *.
  destruct (text_before_caret (firstn (Z.to_nat s) v))
    as (pre & mid & Hbefore & Hpre & Hmid).
  destruct (text_after_caret (skipn (Z.to_nat s) v))
    as (tail & post & Hafter & Htail & Hpost).
  assert (Hv : v = pre ++ mid ++ tail ++ post).
  { rewrite <- (firstn_skipn (Z.to_nat s) v), Hbefore, Hafter.
    now rewrite <- app_assoc. }
  assert (Hs : s = len pre + len mid).
  { rewrite <- len_app, <- Hbefore.
    unfold len in *; rewrite length_firstn; lia. }
  exists pre, mid, tail, post.
  repeat split; try assumption.
  - now apply is_line_app.
  - rewrite Hv, Hs.
    apply getCurrentlySelectedLine_whole; [assumption| |assumption].
    now apply is_line_app.
Qed.

Lemma getCurrentlySelectedLine_line_of_start_witness :
  exists pre mid tail post : jsstring,
    js "ab" ++ LF :: js "cd" = pre ++ mid ++ tail ++ post
    /\ 4 = len pre + len mid
    /\ ends_line pre /\ is_line (mid ++ tail) /\ starts_line post
    /\ getCurrentlySelectedLine (mkTextarea (js "ab" ++ LF :: js "cd") 4 4)
       = mid ++ tail.
Proof.
  apply (getCurrentlySelectedLine_line_of_start
           (mkTextarea (js "ab" ++ LF :: js "cd") 4 4)).
  concrete.
Defined.

(** ** Shift+Tab on a caret *)










(** ** [indentText] and [dedentText] across a line feed *)

Lemma split_app_separator (c : code_unit) (a b : jsstring) :
  split c (a ++ c :: b) = split c a ++ split c b.
Proof.
  induction a as [|d a IH]; simpl.
  - now rewrite N.eqb_refl.
  - rewrite IH.
    destruct (d =? c)%N; [reflexivity|].
    pose proof (split_nonempty c a).
    destruct (split c a); [contradiction|reflexivity].
Qed.

Lemma join_app (c : code_unit) (xs ys : list jsstring) :
  xs <> [] -> ys <> [] ->
  join c (xs ++ ys) = join c xs ++ c :: join c ys.
Proof.
  intros Hxs Hys; induction xs as [|x xs IH]; [contradiction|].
  destruct xs as [|x' xs].
  - simpl app; now rewrite join_cons.
  - change ((x :: x' :: xs) ++ ys) with (x :: (x' :: xs) ++ ys).
    rewrite !join_cons by discriminate.
    rewrite IH by discriminate.
    now rewrite <- app_assoc.
Qed.

(** A function applied line by line works on both sides of a line feed. *)
Lemma per_line_across_line_feed (f : jsstring -> jsstring) (a b : jsstring) :
  join LF (List.map f (split LF (a ++ LF :: b)))
  = join LF (List.map f (split LF a))
      ++ LF :: join LF (List.map f (split LF b)).
Proof.
  rewrite split_app_separator, map_app.
  apply join_app.
  - pose proof (split_nonempty LF a).
    destruct (split LF a); [contradiction|discriminate].
  - pose proof (split_nonempty LF b).
    destruct (split LF b); [contradiction|discriminate].
Qed.

Lemma split_count (c : code_unit) (s : jsstring) :
  List.length (split c s) = S (count_occ N.eq_dec s c).
Proof.
  induction s as [|d s IH]; [reflexivity|].
  simpl.
  destruct (N.eqb_spec d c) as [->|Hd].
  - destruct (N.eq_dec c c); [|contradiction].
    simpl; now rewrite IH.
  - destruct (N.eq_dec d c); [contradiction|].
    rewrite <- IH.
    pose proof (split_nonempty c s).
    destruct (split c s); [contradiction|reflexivity].
Qed.

Lemma len_join_dedented_lower (ls : list jsstring) :
  len (join LF ls) - 2 * Z.of_nat (List.length ls)
  <= len (join LF (List.map replace_two_leading_spaces ls)).
Proof.
  assert (Hline : forall l, len l - 2 <= len (replace_two_leading_spaces l)).
  { intros l; unfold replace_two_leading_spaces.
    destruct l as [|c1 [|c2 rest]]; try lia.
    destruct (is_space c1 && is_space c2); rewrite ?len_cons; lia. }
  induction ls as [|l ls IH]; [unfold len; simpl; lia|].
  pose proof (Hline l).
  destruct ls as [|l' ls].
  - cbn [List.map join List.length]; lia.
  - cbn [List.map] in *.
    rewrite (join_cons LF l), (join_cons LF (replace_two_leading_spaces l))
      by discriminate.
    rewrite !len_app, !len_cons.
    cbn [List.length] in *; lia.
Qed.

(** X8.  [indentText] and [dedentText] work on the two sides of a line feed
    apart: the text [a], a line feed and the text [b] are sent to what [a]
    is sent to, a line feed and what [b] is sent to. *)
Theorem indent_dedent_across_line_feed (a b : jsstring) :
  indentText (a ++ LF :: b) = indentText a ++ LF :: indentText b
  /\ dedentText (a ++ LF :: b) = dedentText a ++ LF :: dedentText b.
Proof.
  split; apply per_line_across_line_feed.
Qed.

(** X9.  [indentText] makes a text longer by two characters for each of
    its lines, one more than it has line feeds; [dedentText] never makes a
    text longer and takes at most two characters from each line. *)
Theorem indent_dedent_lengths (text : jsstring) :
  let lines := Z.of_nat (count_occ N.eq_dec text LF) + 1 in
  len (indentText text) = len text + 2 * lines
  /\ len text - 2 * lines <= len (dedentText text) <= len text.
Proof.
  intros lines.
  assert (Hlines : Z.of_nat (List.length (split LF text)) = lines).
  { rewrite split_count; unfold lines; lia. }
  split; [|split].
  - now rewrite len_indentText, Hlines.
  - unfold dedentText.
    pose proof (len_join_dedented_lower (split LF text)) as H.
    now rewrite join_split, Hlines in H.
  - apply len_dedentText.
Qed.

(** ** Tab and Shift+Tab on a selection, one after the other *)

Lemma handleTab_selection_steps
    (pre mid tail post : jsstring) (e : Z) (shiftKey : bool) :
  ends_line pre -> is_line (mid ++ tail) -> starts_line post ->
  len pre + len mid < e <= len (pre ++ mid ++ tail ++ post) ->
  engine_string (pre ++ mid ++ tail ++ post) ->
  handleTab (mkTextarea (pre ++ mid ++ tail ++ post) (len pre + len mid) e)
    shiftKey
  = let block := slice (pre ++ mid ++ tail ++ post) (len pre) e in
    let newText :=
      if shiftKey then dedentText block else indentText block in
    let a :=
      if shiftKey
      then if startsWith (mid ++ tail) (js "  ")
           then len pre + len mid - 2 else len pre + len mid
      else len pre + len mid + 2 in
    setSelectionRange a (a + len newText)
      (mkTextarea
         (pre ++ newText ++ slice_from (pre ++ mid ++ tail ++ post) e)
         (len pre + len newText) (len pre + len newText)).
Proof.
  intros Hpre Hline Hpost He Hengine.
  unfold handleTab; cbn [value selectionStart selectionEnd].
  destruct (Z.eqb_spec (len pre + len mid) e) as [Heq|_]; [lia|].
  rewrite line_start_of_caret, or_number_zero by assumption.
  rewrite getCurrentlySelectedLine_whole by assumption.
  rewrite !replace_block by assumption.
  destruct shiftKey; [|reflexivity].
  destruct (startsWith (mid ++ tail) (js "  ")); reflexivity.
Qed.

Lemma setSelectionRange_to_end (a b : Z) (t : textarea) :
  len (value t) <= 2 ^ 31 ->
  0 <= a <= len (value t) -> len (value t) <= b < 2 ^ 32 ->
  setSelectionRange a b t = mkTextarea (value t) a (len (value t)).
Proof.
  intros Hn Ha Hb.
  rewrite setSelectionRange_placed by lia; cbv zeta.
  unfold placed.
  destruct (Z.ltb_spec a 0), (Z.ltb_spec b 0); try lia.
  rewrite (Z.min_l a), (Z.min_r b) by lia.
  destruct (Z.leb_spec (len (value t)) a); [|reflexivity].
  now replace a with (len (value t)) by lia.
Qed.

Lemma slice_from_end (s : jsstring) : slice_from s (len s) = [].
Proof.
  rewrite <- (app_nil_r s) at 1.
  apply slice_from_suffix.
Qed.

Lemma indentText_line (l : jsstring) :
  is_line l -> indentText l = SP :: SP :: l.
Proof.
  intros Hl; unfold indentText.
  now rewrite split_line by exact Hl.
Qed.

Lemma startsWith_two_spaces (mid tail : jsstring) :
  startsWith ((SP :: SP :: mid) ++ tail) (js "  ") = true.
Proof. simpl; now destruct (mid ++ tail). Qed.

Lemma indentText_cut (a b : jsstring) :
  indentText (a ++ LF :: b) = indentText a ++ LF :: indentText b.
Proof. apply per_line_across_line_feed. Qed.

Lemma indentText_first_line (l post : jsstring) :
  is_line l -> starts_line post ->
  exists post', starts_line post'
                /\ indentText (l ++ post) = (SP :: SP :: l) ++ post'.
Proof.
  intros Hl [->|[q ->]].
  - exists []; split; [now left|].
    now rewrite !app_nil_r, indentText_line.
  - exists (LF :: indentText q); split; [right; now exists (indentText q)|].
    rewrite indentText_cut, indentText_line by exact Hl.
    reflexivity.
Qed.

Lemma dedentText_after_indentText (text : jsstring) :
  dedentText (indentText text) = text.
Proof.
  unfold dedentText, indentText.
  rewrite split_join.
  - rewrite map_map, (map_ext _ (fun l => l)) by reflexivity.
    rewrite map_id; apply join_split.
  - pose proof (split_nonempty LF text).
    destruct (split LF text); [contradiction|discriminate].
  - apply indented_lines, split_pieces.
Qed.

(** X10.  On a selection that reaches the end of the buffer, Shift+Tab
    undoes Tab: the buffer and the selection are as before the two keys. *)
Theorem handleTab_selection_round_trip (pre mid tail post : jsstring) :
  ends_line pre -> is_line (mid ++ tail) -> starts_line post ->
  let buffer := pre ++ mid ++ tail ++ post in
  let start := len pre + len mid in
  start < len buffer ->
  engine_string (pre ++ indentText (mid ++ tail ++ post)) ->
  handleTab (handleTab (mkTextarea buffer start (len buffer)) false) true
  = mkTextarea buffer start (len buffer).
Proof.
  intros Hpre Hline Hpost buffer start Hstart Hengine.
  pose proof (len_nonneg pre); pose proof (len_nonneg mid).
  set (block := mid ++ tail ++ post) in *.
  pose proof (len_indentText_grows block) as Hgrow.
  assert (Hbuffer : len buffer = len pre + len block).
  { unfold buffer; now rewrite len_app. }
  unfold engine_string in Hengine; rewrite len_app in Hengine.
  assert (Hblock : slice buffer (len pre) (len buffer) = block).
  { apply (slice_from_suffix pre block). }
  assert (Htab : handleTab (mkTextarea buffer start (len buffer)) false
                 = mkTextarea (pre ++ indentText block) (start + 2)
                     (len (pre ++ indentText block))).
  { unfold buffer, start, block.
    rewrite handleTab_selection_steps; try assumption;
      [|fold block buffer start; lia
       |fold block buffer; unfold engine_string; lia].
    cbv zeta; fold block buffer start.
    rewrite Hblock, slice_from_end, app_nil_r.
    apply setSelectionRange_to_end; cbn [value]; rewrite len_app; lia. }
  rewrite Htab.
  destruct (indentText_first_line (mid ++ tail) post Hline Hpost)
    as (post' & Hpost' & Hindent).
  assert (Hindented : indentText block = (SP :: SP :: mid) ++ tail ++ post').
  { unfold block; rewrite (app_assoc mid tail post), Hindent.
    cbn [app]; now rewrite <- app_assoc. }
  assert (Hstart2 : start + 2 = len pre + len (SP :: SP :: mid)).
  { rewrite !len_cons; unfold start; lia. }
  rewrite Hindented, Hstart2.
  rewrite handleTab_selection_steps; try assumption.
  - cbv zeta.
    rewrite <- Hindented.
    replace (slice (pre ++ indentText block) (len pre)
               (len (pre ++ indentText block)))
      with (indentText block) by (symmetry; apply slice_from_suffix).
    rewrite slice_from_end, app_nil_r, dedentText_after_indentText.
    fold buffer.
    rewrite startsWith_two_spaces.
    rewrite <- Hstart2.
    replace (start + 2 - 2) with start by lia.
    rewrite <- Hbuffer.
    apply setSelectionRange_to_end; cbn [value]; lia.
  - intros [Hin|[Hin|Hin]]; [discriminate|discriminate|now apply Hline].
  - rewrite <- Hindented, <- Hstart2, len_app; lia.
  - rewrite <- Hindented; unfold engine_string; rewrite len_app; lia.
Qed.

Lemma handleTab_selection_round_trip_witness :
  handleTab
    (handleTab (mkTextarea (js "x" ++ LF :: js "ab" ++ LF :: js "  c") 3 8)
       false) true
  = mkTextarea (js "x" ++ LF :: js "ab" ++ LF :: js "  c") 3 8.
Proof.
  assert (Hpre : ends_line (js "x" ++ [LF])) by (right; now exists (js "x")).
  assert (Hline : is_line (js "a" ++ js "b")) by concrete.
  assert (Hpost : starts_line (LF :: js "  c"))
    by (right; now exists (js "  c")).
  refine (handleTab_selection_round_trip
            (js "x" ++ [LF]) (js "a") (js "b") (LF :: js "  c")
            Hpre Hline Hpost _ _).
  - concrete.
  - concrete.
Defined.

(** ** Enter and the closing brace, one after the other *)

(** X11.  Enter at the end of a line that ends with an opener, then the
    closing brace: the new line holds the whitespace the first line begins
    with and the brace, so the brace stands under the start of the line it
    closes, and the caret stands after the brace. *)
Theorem handleEnter_then_handleBracketClose (pre ws rest post : jsstring) :
  ends_line pre -> is_line (ws ++ rest) -> starts_line post ->
  Forall (fun c => is_space c = true) ws -> no_leading_space rest ->
  opens_block (ws ++ rest) = true ->
  engine_string (pre ++ (ws ++ rest) ++ LF :: ws ++ SP :: SP :: post) ->
  let caret := len pre + len (ws ++ rest) in
  handleBracketClose
    (handleEnter (mkTextarea (pre ++ (ws ++ rest) ++ post) caret caret))
  = mkTextarea (pre ++ (ws ++ rest) ++ LF :: ws ++ js "}" ++ post)
      (caret + 1 + len ws + 1) (caret + 1 + len ws + 1).
Proof.
  intros Hpre Hline Hpost Hws Hrest Hopens Hengine caret.
  set (line := ws ++ rest) in *.
  pose proof (len_nonneg pre); pose proof (len_nonneg line);
    pose proof (len_nonneg ws); pose proof (len_nonneg post).
  assert (Henter :
    handleEnter (mkTextarea (pre ++ line ++ post) caret caret)
    = mkTextarea
        ((pre ++ line ++ [LF]) ++ (ws ++ [SP; SP]) ++ [] ++ post)
        (len (pre ++ line ++ [LF]) + len (ws ++ [SP; SP]))
        (len (pre ++ line ++ [LF]) + len (ws ++ [SP; SP]))).
  { rewrite (handleEnter_insertText _ ws rest); try assumption.
    - fold line; rewrite Hopens.
      unfold insertText; cbn [value selectionStart selectionEnd].
      unfold caret.
      replace (firstn (Z.to_nat (len pre + len line)) (pre ++ line ++ post))
        with (pre ++ line)
        by (rewrite <- len_app, app_assoc; symmetry; apply firstn_len_app).
      replace (skipn (Z.to_nat (len pre + len line)) (pre ++ line ++ post))
        with post
        by (rewrite <- len_app, app_assoc; symmetry; apply skipn_len_app).
      rewrite !len_app, !len_cons, !len_app, !len_cons, !len_nil.
      f_equal; [|lia|lia].
      cbn [app]; rewrite <- !app_assoc; cbn [app]; reflexivity.
    - unfold caret.
      change (pre ++ line ++ post) with (pre ++ line ++ [] ++ post).
      rewrite getCurrentlySelectedLine_whole;
        rewrite ?app_nil_r; try assumption; reflexivity. }
  rewrite Henter.
  assert (Hnew : is_line ((ws ++ [SP; SP]) ++ [])).
  { rewrite app_nil_r.
    apply is_line_app; [now apply is_line_app_l with rest|].
    intros [H'|[H'|[]]]; discriminate. }
  assert (Hpre' : ends_line (pre ++ line ++ [LF])).
  { right; exists (pre ++ line); now rewrite <- app_assoc. }
  unfold handleBracketClose.
  rewrite getCurrentlySelectedLine_whole by assumption.
  cbn [value selectionStart selectionEnd].
  rewrite Z.eqb_refl, app_nil_r.
  assert (Hspaces : match_only_spaces (ws ++ [SP; SP]) = true).
  { apply match_only_spaces_true; split.
    - rewrite len_app, !len_cons, len_nil; lia.
    - apply Forall_app; split; [exact Hws|repeat constructor]. }
  rewrite Hspaces; cbn [andb].
  assert (Hvalue : (pre ++ line ++ [LF]) ++ (ws ++ [SP; SP]) ++ [] ++ post
                   = pre ++ line ++ LF :: ws ++ SP :: SP :: post).
  { cbn [app]; rewrite <- !app_assoc; cbn [app]; reflexivity. }
  unfold engine_string in Hengine; rewrite <- Hvalue in Hengine.
  set (v := (pre ++ line ++ [LF]) ++ (ws ++ [SP; SP]) ++ [] ++ post) in *.
  set (c := len (pre ++ line ++ [LF]) + len (ws ++ [SP; SP])).
  assert (Hc : c = len ((pre ++ line ++ [LF]) ++ ws) + 2).
  { unfold c; rewrite !len_app, !len_cons, !len_nil; lia. }
  assert (Hlen : len v = c + len post).
  { unfold v, c; rewrite !len_app, !len_cons, !len_nil; lia. }
  pose proof (len_nonneg ((pre ++ line ++ [LF]) ++ ws)).
  rewrite setSelectionRange_inside by (cbn [value]; fold v; lia).
  unfold insertText; cbn [value selectionStart selectionEnd].
  assert (Hv : v = ((pre ++ line ++ [LF]) ++ ws) ++ [SP; SP] ++ post).
  { unfold v; cbn [app]; rewrite <- !app_assoc; reflexivity. }
  replace (firstn (Z.to_nat (c - 2)) v) with ((pre ++ line ++ [LF]) ++ ws)
    by (rewrite Hv, Hc, Z.add_simpl_r; symmetry; apply firstn_len_app).
  replace (skipn (Z.to_nat c) v) with post.
  - f_equal.
    + rewrite <- !app_assoc; cbn [app]; reflexivity.
    + rewrite Hc, !len_app, !len_cons, len_nil.
      unfold caret; change (len (js "}")) with 1; lia.
    + rewrite Hc, !len_app, !len_cons, len_nil.
      unfold caret; change (len (js "}")) with 1; lia.
  - rewrite Hv, Hc.
    replace (len ((pre ++ line ++ [LF]) ++ ws) + 2)
      with (len (((pre ++ line ++ [LF]) ++ ws) ++ [SP; SP]))
      by (rewrite (len_app _ [SP; SP]), !len_cons, len_nil; lia).
    rewrite (app_assoc _ [SP; SP] post).
    symmetry; apply skipn_len_app.
Qed.

Lemma handleEnter_then_handleBracketClose_witness :
  handleBracketClose
    (handleEnter (mkTextarea (js "  if (x) {" ++ LF :: js "y") 10 10))
  = mkTextarea (js "  if (x) {" ++ LF :: js "  }" ++ LF :: js "y") 14 14.
Proof.
  assert (Hline : is_line (js "  " ++ js "if (x) {")) by concrete.
  assert (Hpost : starts_line (LF :: js "y")) by (right; now exists (js "y")).
  assert (Hws : Forall (fun c => is_space c = true) (js "  "))
    by (repeat constructor).
  assert (Hrest : no_leading_space (js "if (x) {"))
    by (intros c r H; inversion H; reflexivity).
  refine (handleEnter_then_handleBracketClose
            [] (js "  ") (js "if (x) {") (LF :: js "y")
            (or_introl eq_refl) Hline Hpost Hws Hrest eq_refl _).
  concrete.
Defined.
